(** * DNSHostProvider: the host-selection strategy of the ZooKeeper client

    A shallow embedding of [dnshostprovider.go] and the properties of its
    four methods [Init], [Next], [Connected] and [Len].

    Every method takes the provider's mutex for its whole duration, so a
    method call is one atomic step on the provider; the embedding is the
    sequential semantics of these steps.  The outside world a call touches
    (the process-wide random source, the DNS resolver, the logger) is an
    explicit component of the state. *)

From Stdlib Require Import ZArith Ascii Lia.
From stdpp Require Import base list strings.

Local Open Scope Z_scope.

(** ** Go's [int] *)

Module GoInt.

(** [int] is a 64-bit two's complement integer on the supported platforms. *)
Definition bits : Z := 64.
Definition max_int : Z := 2 ^ (bits - 1) - 1.
Definition min_int : Z := - 2 ^ (bits - 1).

(** Arithmetic wraps around silently. *)
Definition wrap (z : Z) : Z := (z + 2 ^ (bits - 1)) mod 2 ^ bits - 2 ^ (bits - 1).

Definition add (a b : Z) : Z := wrap (a + b).

(** [a % b] truncates toward zero; the remainder has the sign of [a].
    [None] is the run-time panic on a zero divisor. *)
Definition rem (a b : Z) : option Z :=
  if b =? 0 then None else Some (Z.rem a b).

(** The length of a slice is an [int]. *)
Definition len {A} (l : list A) : Z := Z.of_nat (length l).

(** A list is the contents of some slice when its length fits an [int]. *)
Definition is_slice {A} (l : list A) : Prop := len l <= max_int.

End GoInt.

(** ** Errors

    The error values the provider creates or passes on.  The arguments of a
    format string are kept as they are handed to [fmt.Errorf]. *)

Inductive error : Type :=
| AddrError (Err Addr : string)                  (* *net.AddrError *)
| NoHostsForAddresses (servers : list string)    (* "no hosts found for addresses %q" *)
| NoHostsForAddress (host : string)              (* "no hosts found for address %q" *)
| LookupError (msg : string).                    (* an error of the resolver *)

(** ** The parts of package [net] the provider calls

    [net.SplitHostPort] and [net.JoinHostPort] belong to Go's standard
    library; they are written out here after its sources.  The facts about
    [Init] below hold for any splitting function, and use this one on
    concrete inputs only. *)

Module net.

Fixpoint IndexByte (s : string) (c : ascii) : option nat :=
  match s with
  | EmptyString => None
  | String a s' =>
      if Ascii.eqb a c then Some 0%nat else S <$> IndexByte s' c
  end.

Fixpoint LastIndexByte (s : string) (c : ascii) : option nat :=
  match s with
  | EmptyString => None
  | String a s' =>
      match LastIndexByte s' c with
      | Some i => Some (S i)
      | None => if Ascii.eqb a c then Some 0%nat else None
      end
  end.

(** [s[lo:hi]] *)
Definition slice (s : string) (lo hi : nat) : string :=
  String.substring lo (hi - lo) s.

Definition missingPort : string := "missing port in address".
Definition tooManyColons : string := "too many colons in address".

(** [net.SplitHostPort]: the port starts after the last colon; a host in
    square brackets may itself contain colons. *)
Definition SplitHostPort (hostport : string) : string * string * option error :=
  let addrErr (why : string) := ("", "", Some (AddrError why hostport)) in
  let n := String.length hostport in
  match LastIndexByte hostport ":" with
  | None => addrErr missingPort
  | Some i =>
      let finish (host : string) (j k : nat) :=
        if IndexByte (slice hostport j n) "[" is Some _
        then addrErr "unexpected '[' in address"
        else if IndexByte (slice hostport k n) "]" is Some _
        then addrErr "unexpected ']' in address"
        else (host, slice hostport (i + 1) n, None) in
      if String.get 0 hostport is Some "["%char then
        match IndexByte hostport "]" with
        | None => addrErr "missing ']' in address"
        | Some end_ =>
            if (end_ + 1 =? n)%nat then addrErr missingPort
            else if (end_ + 1 =? i)%nat then finish (slice hostport 1 end_) 1%nat (end_ + 1)%nat
            else if String.get (end_ + 1) hostport is Some ":"%char
            then addrErr tooManyColons
            else addrErr missingPort
        end
      else
        let host := slice hostport 0 i in
        if IndexByte host ":" is Some _ then addrErr tooManyColons
        else finish host 0%nat 0%nat
  end.

(** [net.JoinHostPort]: a host with a colon is taken for a literal IPv6
    address and bracketed. *)
Definition JoinHostPort (host port : string) : string :=
  if IndexByte host ":" is Some _
  then "[" +:+ host +:+ "]:" +:+ port
  else host +:+ ":" +:+ port.

End net.

(** ** Data model *)

Record inetAddress : Type := mkAddr {
  host : string;
  port : string;
  resolved : bool
}.

(** [func (ia inetAddress) addr() string] *)
Definition addr (ia : inetAddress) : string :=
  net.JoinHostPort (host ia) (port ia).

(** The signature of [net.LookupHost] and of its test override: the IPs and
    the error, as Go returns them side by side.  A resolver hands out a
    slice of its own on every call. *)
Definition resolver : Type := string -> list string * option error.

(** The struct, without its mutex.  A [nil] [lookupHost] is [None]. *)
Record DNSHostProvider : Type := mkProvider {
  servers : list inetAddress;
  curr : Z;
  last : Z;
  lookupHost : option resolver
}.

(** The zero value [&DNSHostProvider{}], optionally with a resolver set. *)
Definition zero_provider (lh : option resolver) : DNSHostProvider :=
  {| servers := []; curr := 0; last := 0; lookupHost := lh |}.

(** ** The world around the provider *)

(** A line handed to [DefaultLogger.Printf]: the arguments of
    "Error while resolving zk host %s: %s". *)
Record log_line : Type := ResolveFailed { log_host : string; log_err : error }.

Record World : Type := mkWorld {
  (** the values the process-wide random source is going to produce *)
  rand_draws : nat -> nat;
  (** how many of them have been taken *)
  rand_used : nat;
  (** every host name handed to a resolver, oldest first *)
  dns_queries : list string;
  (** what the logger has received, oldest first *)
  logged : list log_line
}.

Record State : Type := mkState { hp : DNSHostProvider; world : World }.

(** ** A state monad with panics *)

Inductive outcome (A : Type) : Type :=
| Returns (a : A)
| Panics (msg : string).
Arguments Returns {A} a.
Arguments Panics {A} msg.

Definition M (A : Type) : Type := State -> outcome A * State.

Definition ret {A} (a : A) : M A := fun s => (Returns a, s).

Definition bind {A B} (m : M A) (k : A -> M B) : M B :=
  fun s =>
    match m s with
    | (Returns a, s') => k a s'
    | (Panics msg, s') => (Panics msg, s')
    end.

Definition panic {A} (msg : string) : M A := fun s => (Panics msg, s).

Declare Scope go_scope.
Delimit Scope go_scope with go.
Notation "x <- m ;; k" := (bind m (fun x => k))
  (at level 100, m at next level, right associativity) : go_scope.
Notation "m ;; k" := (bind m (fun _ => k))
  (at level 100, right associativity) : go_scope.
Local Open Scope go_scope.

Definition get {A} (field : DNSHostProvider -> A) : M A :=
  fun s => (Returns (field (hp s)), s).

Definition modify_hp (f : DNSHostProvider -> DNSHostProvider) : M unit :=
  fun s => (Returns tt, {| hp := f (hp s); world := world s |}).

Definition get_world : M World :=
  fun s => (Returns (world s), s).

Definition modify_world (f : World -> World) : M unit :=
  fun s => (Returns tt, {| hp := hp s; world := f (world s) |}).

(** The three things a call does to the world. *)
Definition take_draw (w : World) : World :=
  {| rand_draws := rand_draws w; rand_used := S (rand_used w);
     dns_queries := dns_queries w; logged := logged w |}.

Definition record_query (h : string) (w : World) : World :=
  {| rand_draws := rand_draws w; rand_used := rand_used w;
     dns_queries := dns_queries w ++ [h]; logged := logged w |}.

Definition record_log (l : log_line) (w : World) : World :=
  {| rand_draws := rand_draws w; rand_used := rand_used w;
     dns_queries := dns_queries w; logged := logged w ++ [l] |}.

Definition set_servers (v : list inetAddress) : M unit :=
  modify_hp (fun p => {| servers := v; curr := curr p; last := last p;
                         lookupHost := lookupHost p |}).

Definition set_curr (v : Z) : M unit :=
  modify_hp (fun p => {| servers := servers p; curr := v; last := last p;
                         lookupHost := lookupHost p |}).

Definition set_last (v : Z) : M unit :=
  modify_hp (fun p => {| servers := servers p; curr := curr p; last := v;
                         lookupHost := lookupHost p |}).

(** [l[i]] with its bounds check. *)
Definition index {A} (l : list A) (i : Z) : M A :=
  if i <? 0 then panic "index out of range"
  else match l !! Z.to_nat i with
       | Some x => ret x
       | None => panic "index out of range"
       end.

(** [a % b] *)
Definition rem (a b : Z) : M Z :=
  match GoInt.rem a b with
  | Some r => ret r
  | None => panic "integer divide by zero"
  end.

(** ** [math/rand]

    The process-wide source is a stream of values fixed in advance but
    unknown: every fact below holds for all streams. *)

(** One value below [n] from the process-wide source ([Int63n], [int31n]). *)
Definition Intn (n : nat) : M nat :=
  if (n =? 0)%nat then panic "invalid argument to Intn"
  else
    w <- get_world ;;
    modify_world take_draw ;;
    ret (rand_draws w (rand_used w) mod n)%nat.

(** [l[i], l[j] = l[j], l[i]] *)
Definition swap {A} (i j : nat) (l : list A) : M (list A) :=
  match l !! j, l !! i with
  | Some y, Some x => ret (<[j := x]> (<[i := y]> l))
  | _, _ => panic "index out of range"
  end.

(** The loop of [rand.Shuffle (len(l), swap)]:
    [for ; i > 0; i-- { j := Intn(i + 1); swap(i, j) }] *)
Fixpoint Shuffle_from {A} (i : nat) (l : list A) : M (list A) :=
  match i with
  | O => ret l
  | S i' =>
      j <- Intn (i + 1) ;;
      l' <- swap i j l ;;
      Shuffle_from i' l'
  end.

(** [rand.Shuffle(len(l), func(i, j int) { l[i], l[j] = l[j], l[i] })] *)
Definition Shuffle {A} (l : list A) : M (list A) :=
  Shuffle_from (length l - 1) l.

(** [s'] differs from [s] at most in how many random values were taken. *)
Definition drew (s s' : State) : Prop :=
  exists k, s' = {| hp := hp s; world := Nat.iter k take_draw (world s) |}.

(** ** The provider's methods *)

Section Provider.

(** The splitting convention of [net.SplitHostPort]. *)
Variable SplitHostPort : string -> string * string * option error.

(** The resolver of the operating system, [net.LookupHost]. *)
Variable LookupHost : resolver.

(** The [for ... range servers] loop of [Init], which returns early on the
    first entry that does not split. *)
Fixpoint parse (servers : list string) (addrs : list inetAddress)
  : list inetAddress * option error :=
  match servers with
  | [] => (addrs, None)
  | server :: rest =>
      let '(host, port, err) := SplitHostPort server in
      match err with
      | Some e => (addrs, Some e)
      | None => parse rest (addrs ++ [ {| host := host; port := port; resolved := false |} ])
      end
  end.

Definition Init (srvs : list string) : M (option error) :=
  match parse srvs [] with
  | (_, Some err) => ret (Some err)
  | (addrs, None) =>
      if GoInt.len addrs =? 0 then ret (Some (NoHostsForAddresses srvs))
      else
        addrs <- Shuffle addrs ;;
        set_servers addrs ;;
        set_curr (-1) ;;
        set_last (-1) ;;
        ret None
  end.

(** The call of the resolver, recorded in the world. *)
Definition call_lookup (f : resolver) (h : string) : M (list string * option error) :=
  modify_world (record_query h) ;;
  ret (f h).

Definition resolve (a : inetAddress) : M (inetAddress * option error) :=
  if resolved a then ret (a, None)
  else
    lh <- get lookupHost ;;
    let lookup := match lh with Some f => f | None => LookupHost end in
    r <- call_lookup lookup (host a) ;;
    let '(ips, err) := r in
    match err with
    | Some e => ret (a, Some e)
    | None =>
        if GoInt.len ips =? 0 then ret (a, Some (NoHostsForAddress (host a)))
        else
          ips <- Shuffle ips ;;
          ip0 <- index ips 0 ;;
          ret ({| host := ip0; port := port a; resolved := true |}, None)
    end.

Definition Len : M Z :=
  srvs <- get servers ;;
  ret (GoInt.len srvs).

(** Modelled from the spec: [DefaultLogger] is declared elsewhere in the
    package; it is a diagnostic sink that accepts log lines, used only to
    report resolution failures and never consulted for control flow. *)
Definition Printf (l : log_line) : M unit :=
  modify_world (record_log l).

Definition Next : M (string * bool) :=
  c <- get curr ;;
  srvs <- get servers ;;
  c' <- rem (GoInt.add c 1) (GoInt.len srvs) ;;
  set_curr c' ;;
  c <- get curr ;;
  l <- get last ;;
  let retryStart := c =? l in
  (if l =? -1 then set_last 0 else ret tt) ;;
  srvs <- get servers ;;
  c <- get curr ;;
  a <- index srvs c ;;
  r <- resolve a ;;
  let '(a', err) := r in
  match err with
  | Some e =>
      srvs <- get servers ;;
      c <- get curr ;;
      cur <- index srvs c ;;
      Printf {| log_host := host cur; log_err := e |}
  | None => ret tt
  end ;;
  ret (addr a', retryStart).

Definition Connected : M unit :=
  c <- get curr ;;
  set_last c.

(** *** Sequences of calls *)

(** [Next] called [n] times in a row; the results in order. *)
Fixpoint Next_times (n : nat) : M (list (string * bool)) :=
  match n with
  | O => ret []
  | S n' =>
      r <- Next ;;
      rs <- Next_times n' ;;
      ret (r :: rs)
  end.

(** The cursor after each of [n] calls of [Next] in a row. *)
Fixpoint cursors (n : nat) (s : State) : list Z :=
  match n with
  | O => []
  | S n' => let s' := (Next s).2 in curr (hp s') :: cursors n' s'
  end.

(** The operations of a provider between two initialisations. *)
Inductive op : Type := OpNext | OpConnected | OpLen.

(** The state an operation leaves behind, whatever it returns. *)
Definition exec (o : op) (s : State) : State :=
  match o with
  | OpNext => (Next s).2
  | OpConnected => (Connected s).2
  | OpLen => (Len s).2
  end.

Definition exec_all (os : list op) (s : State) : State := foldl (flip exec) s os.

(** Any call on a provider. *)
Inductive call : Type := CInit (srvs : list string) | COp (o : op).

Definition step (c : call) (s : State) : State :=
  match c with
  | CInit srvs => (Init srvs s).2
  | COp o => exec o s
  end.

(** Does the call initialise the provider, that is, is it an [Init] that
    returns [nil]? *)
Definition initialises (c : call) (s : State) : bool :=
  match c with
  | CInit srvs => if (Init srvs s).1 is Returns None then true else false
  | COp _ => false
  end.

Definition run (cs : list call) (s : State) : State := foldl (flip step) s cs.

(** Has some call of the history initialised the provider? *)
Fixpoint initialised (cs : list call) (s : State) : bool :=
  match cs with
  | [] => false
  | c :: cs' => initialises c s || initialised cs' (step c s)
  end.

(** The arguments of the history are slices. *)
Definition slice_args (cs : list call) : Prop :=
  Forall (fun c => match c with CInit srvs => GoInt.is_slice srvs | COp _ => True end) cs.

(** *** What the data model says of a provider's state *)

(** An entry of the input splits as host:port. *)
Definition splits (server : string) : Prop := (SplitHostPort server).2 = None.

(** The candidate an entry is parsed into. *)
Definition candidate (server : string) : inetAddress :=
  {| host := (SplitHostPort server).1.1;
     port := (SplitHostPort server).1.2;
     resolved := false |}.

(** [i] is -1 or an index of [l]. *)
Definition index_or_unset {A} (l : list A) (i : Z) : Prop :=
  i = -1 \/ 0 <= i < GoInt.len l.

Definition provider_inv (p : DNSHostProvider) : Prop :=
  servers p <> [] /\ index_or_unset (servers p) (curr p) /\
  index_or_unset (servers p) (last p).

(** The invariant together with the bound Go puts on every slice. *)
Definition well_formed (p : DNSHostProvider) : Prop :=
  provider_inv p /\ GoInt.is_slice (servers p).

(** *** The states a call of [Next] goes through *)

(** The resolver a provider uses. *)
Definition effective_lookup (p : DNSHostProvider) : resolver :=
  match lookupHost p with Some f => f | None => LookupHost end.

(** The anchor after [if hp.last == -1 { hp.last = 0 }]. *)
Definition promoted (l : Z) : Z := if l =? -1 then 0 else l.

(** The state once the cursor has moved to [c] and the anchor is set. *)
Definition advanced (c : Z) (s : State) : State :=
  {| hp := {| servers := servers (hp s); curr := c; last := promoted (last (hp s));
              lookupHost := lookupHost (hp s) |};
     world := world s |}.

(** The state once the resolver has been asked for [h]. *)
Definition queried (h : string) (s : State) : State :=
  {| hp := hp s; world := record_query h (world s) |}.

(** The state once the logger has been handed [l]. *)
Definition reported (l : log_line) (s : State) : State :=
  {| hp := hp s; world := record_log l (world s) |}.

End Provider.

(** ** A test bench: the injected resolvers and worlds of the examples *)

Definition quiet_world (draws : nat -> nat) : World :=
  {| rand_draws := draws; rand_used := 0; dns_queries := []; logged := [] |}.

(** The resolver that maps each host name to itself as a single IP. *)
Definition self_resolver : resolver := fun h => ([h], None).

(** The resolver that knows host "a" only. *)
Definition a_resolver : resolver :=
  fun h => if String.eqb h "a" then (["10.0.0.1"], None)
           else ([], Some (LookupError "no such host")).

(** A resolver that always fails. *)
Definition failing_resolver : resolver :=
  fun _ => ([], Some (LookupError "no such host")).

(** A fresh provider with an injected resolver, in a quiet world. *)
Definition fresh (lh : resolver) (draws : nat -> nat) : State :=
  {| hp := zero_provider (Some lh); world := quiet_world draws |}.

Definition zk3 : list string := ["zk1:2181"; "zk2:2181"; "zk3:2181"].

(** The provider of the spec's scenario, right after [Init]. *)
Definition zk3_ready : State :=
  (Init net.SplitHostPort zk3 (fresh self_resolver (fun k => k))).2.

(** The same provider after one [Next]. *)
Definition zk3_started : State := (Next self_resolver zk3_ready).2.

(** The same provider after [Next], [Next], [Connected]. *)
Definition zk3_connected : State :=
  exec_all self_resolver [OpNext; OpNext; OpConnected] zk3_ready.

(** A provider for host "a" alone, right after [Init]. *)
Definition a_ready : State :=
  (Init net.SplitHostPort ["a:2181"] (fresh a_resolver (fun _ => 0%nat))).2.

(** A provider for one host whose lookups fail, right after [Init]. *)
Definition down_ready : State :=
  (Init net.SplitHostPort ["zk1:2181"] (fresh failing_resolver (fun _ => 0%nat))).2.

(** * Facts *)

(** ** Go's [int] *)

Lemma GoInt_wrap_small z :
  GoInt.min_int <= z <= GoInt.max_int -> GoInt.wrap z = z.
Proof.
  unfold GoInt.wrap, GoInt.min_int, GoInt.max_int, GoInt.bits. intros Hz.
  rewrite Z.mod_small; lia.
Qed.

Lemma GoInt_len_nil_iff {A} (l : list A) : GoInt.len l = 0 <-> l = [].
Proof. unfold GoInt.len. destruct l; simpl; split; intros; try done; lia. Qed.

Lemma GoInt_len_pos {A} (l : list A) : l <> [] -> 0 < GoInt.len l.
Proof. unfold GoInt.len. destruct l; simpl; [done | lia]. Qed.

(** The cursor update of [Next] on a provider that satisfies its invariant:
    no wrap-around, and Go's remainder is the mathematical one. *)
Lemma GoInt_advance c n :
  0 < n <= GoInt.max_int -> -1 <= c < n ->
  GoInt.rem (GoInt.add c 1) n = Some ((c + 1) mod n).
Proof.
  intros Hn Hc. unfold GoInt.rem, GoInt.add.
  rewrite GoInt_wrap_small by (unfold GoInt.min_int, GoInt.max_int, GoInt.bits in *; lia).
  destruct (Z.eqb_spec n 0) as [->|_]; [lia|].
  by rewrite Z.rem_mod_nonneg by lia.
Qed.

(** ** Package [net] *)

Lemma JoinHostPort_nonempty h p : net.JoinHostPort h p <> "".
Proof.
  unfold net.JoinHostPort. destruct (net.IndexByte h ":"); [done|].
  destruct h; done.
Qed.

Lemma JoinHostPort_plain h p :
  net.IndexByte h ":" = None -> net.JoinHostPort h p = h +:+ ":" +:+ p.
Proof. unfold net.JoinHostPort. by intros ->. Qed.

Example SplitHostPort_zk1 : net.SplitHostPort "zk1:2181" = ("zk1", "2181", None).
Proof. reflexivity. Qed.

Example SplitHostPort_v6 : net.SplitHostPort "[::1]:2181" = ("::1", "2181", None).
Proof. reflexivity. Qed.

Example SplitHostPort_badhost :
  net.SplitHostPort "badhost" = ("", "", Some (AddrError net.missingPort "badhost")).
Proof. reflexivity. Qed.

Example SplitHostPort_colons :
  net.SplitHostPort "a:b:1" = ("", "", Some (AddrError net.tooManyColons "a:b:1")).
Proof. reflexivity. Qed.

(** ** The random source and the shuffle *)

Lemma drew_refl s : drew s s.
Proof. exists 0%nat. by destruct s. Qed.

Lemma drew_trans s1 s2 s3 : drew s1 s2 -> drew s2 s3 -> drew s1 s3.
Proof.
  intros [k1 ->] [k2 ->]. exists (k2 + k1)%nat. simpl.
  by rewrite Nat.iter_add.
Qed.

Lemma iter_take_draw_frame k w :
  dns_queries (Nat.iter k take_draw w) = dns_queries w /\
  logged (Nat.iter k take_draw w) = logged w /\
  rand_draws (Nat.iter k take_draw w) = rand_draws w.
Proof. induction k as [|k IH]; simpl; [done | apply IH]. Qed.

Lemma drew_hp s s' : drew s s' -> hp s' = hp s.
Proof. by intros [k ->]. Qed.

Lemma drew_queries s s' :
  drew s s' -> dns_queries (world s') = dns_queries (world s).
Proof. intros [k ->]. apply iter_take_draw_frame. Qed.

Lemma drew_logged s s' : drew s s' -> logged (world s') = logged (world s).
Proof. intros [k ->]. apply iter_take_draw_frame. Qed.

Lemma Intn_returns n s :
  (0 < n)%nat ->
  exists j s', Intn n s = (Returns j, s') /\ (j < n)%nat /\ drew s s'.
Proof.
  intros Hn. unfold Intn. destruct (Nat.eqb_spec n 0) as [->|_]; [lia|].
  eexists _, _. split; [reflexivity|]. split.
  - apply Nat.mod_upper_bound. lia.
  - by exists 1%nat.
Qed.

Lemma swap_returns {A} i j (l : list A) s :
  (i < length l)%nat -> (j < length l)%nat ->
  exists l', swap i j l s = (Returns l', s) /\ l' ≡ₚ l /\ length l' = length l.
Proof.
  intros [x Hx]%lookup_lt_is_Some_2 [y Hy]%lookup_lt_is_Some_2.
  unfold swap. rewrite Hx, Hy. eexists. split; [reflexivity|]. split.
  - by apply Permutation_insert_swap.
  - by rewrite !length_insert.
Qed.

Lemma Shuffle_from_returns {A} i : forall (l : list A) s,
  (i = 0 \/ i < length l)%nat ->
  exists l' s', Shuffle_from i l s = (Returns l', s') /\ l' ≡ₚ l /\ drew s s'.
Proof.
  induction i as [|i IH]; intros l s Hi.
  - exists l, s. repeat split; [done | apply drew_refl].
  - destruct Hi as [|Hi]; [done|]. cbn [Shuffle_from]. unfold bind.
    destruct (Intn_returns (S i + 1) s) as (j & s1 & -> & Hj & Hs1); [lia|].
    destruct (swap_returns (S i) j l s1) as (l1 & -> & Hl1 & Hlen); [lia..|].
    destruct (IH l1 s1) as (l2 & s2 & -> & Hl2 & Hs2); [lia|].
    exists l2, s2. repeat split; [by rewrite Hl2 | by eapply drew_trans].
Qed.

(** [rand.Shuffle] returns, with a permutation of the slice, and touches
    nothing but the random source. *)
Lemma Shuffle_returns {A} (l : list A) s :
  exists l' s', Shuffle l s = (Returns l', s') /\ l' ≡ₚ l /\ drew s s'.
Proof.
  apply Shuffle_from_returns. destruct l; simpl; [by left | right; lia].
Qed.

(** ** The methods *)

Section ProviderFacts.

Variable SplitHostPort : string -> string * string * option error.
Variable LookupHost : resolver.

Local Abbreviation parse := (parse SplitHostPort).
Local Abbreviation splits := (splits SplitHostPort).
Local Abbreviation candidate := (candidate SplitHostPort).
Local Abbreviation Init := (Init SplitHostPort).
Local Abbreviation resolve := (resolve LookupHost).
Local Abbreviation effective_lookup := (effective_lookup LookupHost).
Local Abbreviation Next := (Next LookupHost).
Local Abbreviation Next_times := (Next_times LookupHost).
Local Abbreviation cursors := (cursors LookupHost).
Local Abbreviation exec := (exec LookupHost).
Local Abbreviation exec_all := (exec_all LookupHost).
Local Abbreviation step := (step SplitHostPort LookupHost).
Local Abbreviation run := (run SplitHostPort LookupHost).
Local Abbreviation initialises := (initialises SplitHostPort).
Local Abbreviation initialised := (initialised SplitHostPort LookupHost).

(** *** [Init] *)

Lemma splits_dec server : {splits server} + {~ splits server}.
Proof. unfold splits. destruct (SplitHostPort server).2; [right | left]; done. Qed.

Lemma parse_splits srvs : forall acc,
  Forall splits srvs -> parse srvs acc = (acc ++ map candidate srvs, None).
Proof.
  induction srvs as [|server rest IH]; intros acc Hall; simpl.
  - by rewrite app_nil_r.
  - apply Forall_cons in Hall as [Hs Hrest].
    unfold splits in Hs. unfold candidate at 1.
    destruct (SplitHostPort server) as [[h p] e]; simpl in *; subst e.
    by rewrite IH, <- app_assoc.
Qed.

Lemma parse_fails srvs : forall acc,
  Exists (fun server => ~ splits server) srvs ->
  exists addrs e, parse srvs acc = (addrs, Some e).
Proof.
  induction srvs as [|server rest IH]; intros acc Hex.
  - by apply Exists_nil in Hex.
  - simpl. unfold splits in *.
    destruct (SplitHostPort server) as [[h p] [e|]] eqn:Hsplit; [by eauto|].
    apply Exists_cons in Hex as [Hbad | Hrest].
    + rewrite Hsplit in Hbad. by destruct Hbad.
    + by apply IH.
Qed.

(** A failing [Init] returns its error and leaves the provider and the
    world as they were. *)
Lemma Init_fails srvs s :
  srvs = [] \/ Exists (fun server => ~ splits server) srvs ->
  exists e, Init srvs s = (Returns (Some e), s).
Proof.
  intros [-> | Hbad]; unfold Init.
  - simpl. by eexists.
  - destruct (parse_fails srvs [] Hbad) as (addrs & e & ->). by eexists.
Qed.

(** A successful [Init]. *)
Lemma Init_succeeds srvs s :
  Forall splits srvs -> srvs <> [] ->
  exists addrs s1,
    Init srvs s = (Returns None, {| hp := {| servers := addrs; curr := -1; last := -1;
                                             lookupHost := lookupHost (hp s) |};
                                    world := world s1 |})
    /\ addrs ≡ₚ map candidate srvs /\ drew s s1.
Proof.
  intros Hall Hne. unfold Init.
  rewrite parse_splits by done. simpl.
  destruct (Z.eqb_spec (GoInt.len (map candidate srvs)) 0) as [Hz|_].
  { apply GoInt_len_nil_iff in Hz. by destruct srvs. }
  unfold bind.
  destruct (Shuffle_returns (map candidate srvs) s) as (addrs & s1 & -> & Hperm & Hs1).
  exists addrs, s1. split; [|done].
  simpl. by rewrite (drew_hp _ _ Hs1).
Qed.

Lemma Init_nil_inv srvs s s' :
  Init srvs s = (Returns None, s') -> Forall splits srvs /\ srvs <> [].
Proof.
  intros Hinit.
  destruct (Forall_Exists_dec splits (fun x => ~ splits x) splits_dec srvs) as [Hall | Hbad].
  - split; [done|]. intros ->.
    destruct (Init_fails [] s) as [e He]; [by left|]. congruence.
  - destruct (Init_fails srvs s) as [e He]; [by right|]. congruence.
Qed.

(** [Init] never panics: it fails and leaves everything as it was, or it
    succeeds and resets both cursors. *)
Lemma Init_outcome srvs s :
  (exists e, Init srvs s = (Returns (Some e), s)) \/
  (exists s', Init srvs s = (Returns None, s') /\
              curr (hp s') = -1 /\ last (hp s') = -1).
Proof.
  destruct (Forall_Exists_dec splits (fun x => ~ splits x) splits_dec srvs) as [Hall | Hbad].
  - destruct srvs as [|server rest].
    + left. apply Init_fails. by left.
    + right. destruct (Init_succeeds (server :: rest) s) as (? & ? & -> & _); by eauto.
  - left. apply Init_fails. by right.
Qed.

(** *** [resolve] *)

Lemma resolve_cached a s :
  resolved a = true -> resolve a s = (Returns (a, None), s).
Proof. unfold resolve. by intros ->. Qed.

(** A failed or empty lookup hands the candidate back as it was. *)
Lemma resolve_falls_back a s ips err :
  resolved a = false ->
  effective_lookup (hp s) (host a) = (ips, err) ->
  err <> None \/ ips = [] ->
  exists e, resolve a s = (Returns (a, Some e), queried (host a) s).
Proof.
  intros Ha Hlookup Hfail. unfold resolve, effective_lookup in *.
  rewrite Ha. unfold bind, get, call_lookup, bind, modify_world, ret. simpl.
  rewrite Hlookup. destruct err as [e|]; [by eexists|].
  destruct Hfail as [ ? | -> ]; [done|]. by eexists.
Qed.

(** A lookup with results pins the candidate to one of them. *)
Lemma resolve_picks a s ips :
  resolved a = false ->
  effective_lookup (hp s) (host a) = (ips, None) ->
  ips <> [] ->
  exists ip s',
    resolve a s = (Returns ({| host := ip; port := port a; resolved := true |}, None), s')
    /\ ip ∈ ips /\ drew (queried (host a) s) s'.
Proof.
  intros Ha Hlookup Hne. unfold resolve, effective_lookup in *.
  rewrite Ha. unfold bind, get, call_lookup, bind, modify_world, ret. simpl.
  rewrite Hlookup.
  destruct (Z.eqb_spec (GoInt.len ips) 0) as [Hz|_].
  { by apply GoInt_len_nil_iff in Hz. }
  destruct (Shuffle_returns ips
              {| hp := hp s; world := record_query (host a) (world s) |})
    as (ips' & s' & -> & Hperm & Hdrew).
  destruct ips' as [|ip ips'].
  { apply Permutation_nil_l in Hperm. by subst. }
  exists ip, s'. split; [done|]. split; [|done].
  rewrite <- Hperm. by left.
Qed.

(** [resolve] always returns, and never touches the provider. *)
Lemma resolve_returns a s :
  exists r s', resolve a s = (Returns r, s') /\ hp s' = hp s.
Proof.
  destruct (resolved a) eqn:Ha.
  - rewrite resolve_cached by done. by eauto.
  - destruct (effective_lookup (hp s) (host a)) as [ips err] eqn:Hlookup.
    destruct err as [e|].
    + destruct (resolve_falls_back a s ips (Some e)) as [e' ->]; [done..|by left|].
      by eauto.
    + destruct ips as [|ip ips].
      * destruct (resolve_falls_back a s [] None) as [e' ->]; [done..|by right|].
        by eauto.
      * destruct (resolve_picks a s (ip :: ips)) as (ip' & s' & -> & _ & Hdrew);
          [done..|].
        eexists _, s'. split; [done|]. by rewrite (drew_hp _ _ Hdrew).
Qed.

(** *** [Next] *)

Lemma index_returns {A} (l : list A) i x s :
  0 <= i -> l !! Z.to_nat i = Some x -> index l i s = (Returns x, s).
Proof.
  intros Hi Hx. unfold index.
  destruct (Z.ltb_spec i 0); [lia|]. by rewrite Hx.
Qed.

Lemma index_outcome {A} (l : list A) i s :
  (exists x, 0 <= i /\ l !! Z.to_nat i = Some x /\ index l i s = (Returns x, s))
  \/ index l i s = (Panics "index out of range", s).
Proof.
  unfold index. destruct (Z.ltb_spec i 0); [by right|].
  destruct (l !! Z.to_nat i) as [x|] eqn:Hx; [left | by right].
  by exists x.
Qed.

(** The body of [Next], step by step. *)
Lemma Next_unfold s :
  Next s =
  match GoInt.rem (GoInt.add (curr (hp s)) 1) (GoInt.len (servers (hp s))) with
  | None => (Panics "integer divide by zero", s)
  | Some c =>
      let s1 := advanced c s in
      match index (servers (hp s)) c s1 with
      | (Panics msg, _) => (Panics msg, s1)
      | (Returns a, _) =>
          match resolve a s1 with
          | (Returns (a', None), s2) => (Returns (addr a', c =? last (hp s)), s2)
          | (Returns (a', Some e), s2) =>
              (Returns (addr a', c =? last (hp s)),
               reported {| log_host := host a; log_err := e |} s2)
          | (Panics msg, s2) => (Panics msg, s2)
          end
      end
  end.
Proof.
  unfold Next, bind, get, rem. simpl.
  destruct (GoInt.rem _ _) as [c|]; [|done]. simpl.
  assert ((if last (hp s) =? -1 then set_last 0 else ret ())
            {| hp := {| servers := servers (hp s); curr := c; last := last (hp s);
                        lookupHost := lookupHost (hp s) |};
               world := world s |} = (Returns (), advanced c s)) as ->.
  { unfold advanced, promoted. by destruct (last (hp s) =? -1). }
  simpl.
  destruct (index_outcome (servers (hp s)) c (advanced c s))
    as [(a & Hc & Ha & ->) | ->]; [|done].
  destruct (resolve_returns a (advanced c s)) as ([a' err] & s2 & -> & Hhp).
  destruct err as [e|]; [|done].
  rewrite Hhp. simpl. by rewrite (index_returns _ _ a).
Qed.

(** On a provider without servers the cursor update divides by zero. *)
Lemma Next_empty s :
  servers (hp s) = [] -> Next s = (Panics "integer divide by zero", s).
Proof. intros Hnil. rewrite Next_unfold, Hnil. reflexivity. Qed.

(** Whatever the state, [Next] leaves the provider as it was, or with the
    cursor moved and the anchor set, and nothing else. *)
Lemma Next_frame s :
  hp (Next s).2 = hp s \/ exists c, hp (Next s).2 = hp (advanced c s).
Proof.
  rewrite Next_unfold.
  destruct (GoInt.rem _ _) as [c|]; [|by left]. right. exists c. simpl.
  destruct (index_outcome (servers (hp s)) c (advanced c s))
    as [(a & _ & _ & ->) | ->]; [|done].
  destruct (resolve_returns a (advanced c s)) as ([a' err] & s2 & -> & Hhp).
  by destruct err.
Qed.

Lemma Next_servers s : servers (hp (Next s).2) = servers (hp s).
Proof. by destruct (Next_frame s) as [-> | [c ->]]. Qed.

Lemma Next_lookupHost s : lookupHost (hp (Next s).2) = lookupHost (hp s).
Proof. by destruct (Next_frame s) as [-> | [c ->]]. Qed.

Lemma Next_last s :
  last (hp (Next s).2) = last (hp s) \/
  last (hp s) = -1 /\ last (hp (Next s).2) = 0.
Proof.
  destruct (Next_frame s) as [-> | [c ->]]; [by left|]. simpl. unfold promoted.
  destruct (Z.eqb_spec (last (hp s)) (-1)); [by right | by left].
Qed.

Lemma Next_cursor_index s :
  servers (hp s) <> [] ->
  0 <= (curr (hp s) + 1) mod GoInt.len (servers (hp s)) < GoInt.len (servers (hp s)).
Proof. intros Hne. apply Z.mod_pos_bound. by apply GoInt_len_pos. Qed.

Lemma Next_candidate s :
  servers (hp s) <> [] ->
  exists a,
    servers (hp s) !! Z.to_nat ((curr (hp s) + 1) mod GoInt.len (servers (hp s))) = Some a.
Proof.
  intros Hne. apply lookup_lt_is_Some_2. pose proof (Next_cursor_index s Hne).
  unfold GoInt.len in *. lia.
Qed.

(** [Next] on a provider that satisfies its invariant, with the lookup of
    its candidate still to be made. *)
Lemma Next_resolves s a :
  servers (hp s) <> [] -> GoInt.is_slice (servers (hp s)) ->
  -1 <= curr (hp s) < GoInt.len (servers (hp s)) ->
  let c := (curr (hp s) + 1) mod GoInt.len (servers (hp s)) in
  servers (hp s) !! Z.to_nat c = Some a ->
  Next s =
  match resolve a (advanced c s) with
  | (Returns (a', None), s2) => (Returns (addr a', c =? last (hp s)), s2)
  | (Returns (a', Some e), s2) =>
      (Returns (addr a', c =? last (hp s)),
       reported {| log_host := host a; log_err := e |} s2)
  | (Panics msg, s2) => (Panics msg, s2)
  end.
Proof.
  intros Hne Hfit Hc c Ha. rewrite Next_unfold.
  rewrite GoInt_advance by (pose proof (GoInt_len_pos _ Hne); done).
  fold c. cbv zeta.
  rewrite (index_returns _ _ a); [done | by apply Next_cursor_index | done].
Qed.

(** [Next] returns; the cursor has moved one place round the ring, the flag
    compares it with the anchor as it was, and the anchor is set. *)
Lemma Next_returns s :
  servers (hp s) <> [] -> GoInt.is_slice (servers (hp s)) ->
  -1 <= curr (hp s) < GoInt.len (servers (hp s)) ->
  let c := (curr (hp s) + 1) mod GoInt.len (servers (hp s)) in
  exists server s',
    Next s = (Returns (server, c =? last (hp s)), s') /\
    hp s' = hp (advanced c s).
Proof.
  intros Hne Hfit Hc c. destruct (Next_candidate s Hne) as [a Ha].
  rewrite (Next_resolves s a Hne Hfit Hc Ha). fold c.
  destruct (resolve_returns a (advanced c s)) as ([a' err] & s2 & -> & Hhp).
  destruct err; eauto.
Qed.

(** *** [Connected] and [Len] *)

Lemma Connected_returns s :
  Connected s =
  (Returns (), {| hp := {| servers := servers (hp s); curr := curr (hp s);
                           last := curr (hp s); lookupHost := lookupHost (hp s) |};
                  world := world s |}).
Proof. reflexivity. Qed.

Lemma Len_returns s : Len s = (Returns (GoInt.len (servers (hp s))), s).
Proof. reflexivity. Qed.

(** *** The invariant *)

Lemma well_formed_bounds p :
  well_formed p ->
  servers p <> [] /\ GoInt.is_slice (servers p) /\
  -1 <= curr p < GoInt.len (servers p) /\ -1 <= last p < GoInt.len (servers p).
Proof.
  intros [(Hne & Hc & Hl) Hfit]. pose proof (GoInt_len_pos _ Hne).
  unfold index_or_unset in *. repeat split; try done; lia.
Qed.

Lemma well_formed_intro p :
  servers p <> [] -> GoInt.is_slice (servers p) ->
  -1 <= curr p < GoInt.len (servers p) -> -1 <= last p < GoInt.len (servers p) ->
  well_formed p.
Proof.
  intros Hne Hfit Hc Hl. unfold well_formed, provider_inv, index_or_unset.
  repeat split; try done; lia.
Qed.

Lemma Init_well_formed srvs s s1 :
  Init srvs s = (Returns None, s1) -> GoInt.is_slice srvs -> well_formed (hp s1).
Proof.
  intros Hinit Hfit. destruct (Init_nil_inv _ _ _ Hinit) as [Hall Hne].
  destruct (Init_succeeds srvs s Hall Hne) as (addrs & s' & Heq & Hperm & _).
  rewrite Heq in Hinit. injection Hinit as <-. simpl.
  assert (length addrs = length srvs) as Hlen.
  { by rewrite Hperm, length_map. }
  apply well_formed_intro; simpl.
  - intros ->. by destruct srvs.
  - unfold GoInt.is_slice, GoInt.len in *. by rewrite Hlen.
  - unfold GoInt.len. lia.
  - unfold GoInt.len. lia.
Qed.

Lemma Next_well_formed s : well_formed (hp s) -> well_formed (hp (Next s).2).
Proof.
  intros Hwf. destruct (well_formed_bounds _ Hwf) as (Hne & Hfit & Hc & Hl).
  destruct (Next_returns s Hne Hfit Hc) as (server & s' & -> & Hhp).
  pose proof (Next_cursor_index s Hne) as Hidx.
  simpl. rewrite Hhp.
  apply well_formed_intro; simpl; try done; [lia|].
  unfold promoted. destruct (Z.eqb_spec (last (hp s)) (-1)); lia.
Qed.

Lemma exec_well_formed o s : well_formed (hp s) -> well_formed (hp (exec o s)).
Proof.
  intros Hwf. destruct o; simpl.
  - by apply Next_well_formed.
  - destruct (well_formed_bounds _ Hwf) as (Hne & Hfit & Hc & Hl).
    by apply well_formed_intro.
  - done.
Qed.

Lemma exec_all_well_formed os : forall s,
  well_formed (hp s) -> well_formed (hp (exec_all os s)).
Proof.
  induction os as [|o os IH]; intros s Hwf; [done|].
  apply IH. by apply exec_well_formed.
Qed.

Lemma step_well_formed c s :
  match c with CInit srvs => GoInt.is_slice srvs | COp _ => True end ->
  well_formed (hp s) -> well_formed (hp (step c s)).
Proof.
  intros Hfit Hwf. destruct c as [srvs | o]; simpl; [|by apply exec_well_formed].
  destruct (Init_outcome srvs s) as [[e Heq] | (s' & Heq & _)]; rewrite Heq; simpl.
  - done.
  - by eapply Init_well_formed.
Qed.

(** *** Histories of calls *)

Lemma run_well_formed cs : forall s,
  slice_args cs -> well_formed (hp s) -> well_formed (hp (run cs s)).
Proof.
  induction cs as [|c cs IH]; intros s Hargs Hwf; [done|].
  apply Forall_cons in Hargs as [Hc Hcs].
  apply IH; [done|]. by apply step_well_formed.
Qed.

(** A call on a provider without servers initialises it or leaves it
    without servers. *)
Lemma step_empty c s :
  match c with CInit srvs => GoInt.is_slice srvs | COp _ => True end ->
  servers (hp s) = [] ->
  if initialises c s then well_formed (hp (step c s))
  else servers (hp (step c s)) = [].
Proof.
  intros Hfit Hnil. destruct c as [srvs | o]; simpl.
  - destruct (Init_outcome srvs s) as [[e Heq] | (s' & Heq & _)]; rewrite Heq; simpl.
    + done.
    + by eapply Init_well_formed.
  - destruct o; simpl; [|done..]. by rewrite Next_empty.
Qed.

Lemma run_from_empty cs : forall s,
  slice_args cs -> servers (hp s) = [] ->
  if initialised cs s then well_formed (hp (run cs s))
  else servers (hp (run cs s)) = [].
Proof.
  induction cs as [|c cs IH]; intros s Hargs Hnil; [done|].
  apply Forall_cons in Hargs as [Hc Hcs]. simpl.
  pose proof (step_empty c s Hc Hnil) as Hstep.
  destruct (initialises c s); simpl.
  - by apply run_well_formed.
  - by apply IH.
Qed.

(** *** Cycling without [Connected] *)

(** From cursor [curr] with the anchor at 0, [m] calls reach the last
    index without the flag, and the call after them wraps to 0 with it. *)
Lemma Next_times_wraps m : forall s,
  servers (hp s) <> [] -> GoInt.is_slice (servers (hp s)) ->
  last (hp s) = 0 -> 0 <= curr (hp s) ->
  curr (hp s) + Z.of_nat m = GoInt.len (servers (hp s)) - 1 ->
  exists rs s',
    Next_times (m + 1) s = (Returns rs, s') /\
    rs.*2 = replicate m false ++ [true] /\
    curr (hp s') = 0.
Proof.
  induction m as [|m IH]; intros s Hne Hfit Hlast Hcurr Hm.
  - destruct (Next_returns s Hne Hfit) as (server & s' & Hnext & Hhp); [lia|].
    replace (curr (hp s) + 1) with (GoInt.len (servers (hp s))) in Hnext, Hhp by lia.
    rewrite Z.mod_same in Hnext, Hhp by (pose proof (GoInt_len_pos _ Hne); lia).
    simpl. unfold bind. rewrite Hnext. simpl.
    eexists _, _. split; [reflexivity|]. simpl.
    rewrite Hlast, Hhp. done.
  - destruct (Next_returns s Hne Hfit) as (server & s' & Hnext & Hhp); [lia|].
    rewrite Z.mod_small in Hnext, Hhp by lia.
    destruct (IH s') as (rs & s'' & Htimes & Hflags & Hback).
    + by rewrite Hhp.
    + by rewrite Hhp.
    + rewrite Hhp. simpl. by rewrite Hlast.
    + rewrite Hhp. simpl. lia.
    + rewrite Hhp. simpl. lia.
    + change (Next_times (S m + 1)) with
        (bind Next (fun r => bind (Next_times (m + 1)) (fun rs => ret (r :: rs)))).
      unfold bind at 1. rewrite Hnext. unfold bind. rewrite Htimes.
      eexists _, _. split; [reflexivity|]. rewrite fmap_cons, Hflags. simpl.
      destruct (Z.eqb_spec (curr (hp s) + 1) (last (hp s))); [lia | done].
Qed.

(** ** The claims *)

(** C2, as amended: after a successful [Init] with N candidates, N + 1
    calls of [Next] without a [Connected] in between return
    [retryStart = false] on each of the first N calls and
    [retryStart = true] on call N + 1, the call on which the cursor is back
    at index 0, the default anchor. *)
Theorem retryStart_after_full_cycle srvs s s1 :
  Init srvs s = (Returns None, s1) -> GoInt.is_slice srvs ->
  length (servers (hp s1)) = length srvs /\
  exists rs s2,
    Next_times (length srvs + 1) s1 = (Returns rs, s2) /\
    rs.*2 = replicate (length srvs) false ++ [true] /\
    curr (hp s2) = 0.
Proof.
  intros Hinit Hfit. pose proof (Init_well_formed _ _ _ Hinit Hfit) as Hwf.
  destruct (Init_nil_inv _ _ _ Hinit) as [Hall Hsrvs].
  destruct (Init_succeeds srvs s Hall Hsrvs) as (addrs & s' & Heq & Hperm & _).
  rewrite Heq in Hinit. injection Hinit as <-.
  assert (length addrs = length srvs) as Hlen by (by rewrite Hperm, length_map).
  split; [done|].
  destruct (well_formed_bounds _ Hwf) as (Hne & Hslice & Hc & _).
  set (s1 := {| hp := _; world := _ |}) in *.
  destruct (Next_returns s1 Hne Hslice Hc) as (server & s2 & Hnext & Hhp).
  simpl in Hnext, Hhp. change (-1 + 1) with 0 in Hhp. rewrite Zmod_0_l in Hhp.
  destruct srvs as [|srv rest]; [done|]. simpl length in *.
  destruct (Next_times_wraps (length rest) s2) as (rs & s3 & Htimes & Hflags & Hback);
    try (rewrite Hhp; simpl; done).
  { rewrite Hhp. simpl. unfold GoInt.len. lia. }
  change (Next_times (S (length rest) + 1)) with
    (bind Next (fun r => bind (Next_times (length rest + 1)) (fun rs => ret (r :: rs)))).
  unfold bind at 1. rewrite Hnext. unfold bind. rewrite Htimes.
  eexists _, _. split; [reflexivity|]. by rewrite fmap_cons, Hflags.
Qed.

(** C3, as amended: in every provider state with a non-empty sequence of
    length N, one call of [Next] returns, sets [curr] to (old [curr] + 1)
    mod N, returns [retryStart] equal to (new [curr] == [last] as it was
    before the call), and sets [last] to 0 if it was -1, which does not touch
    [curr]; the only other call that changes [curr] is an [Init] that
    succeeds, which resets it to -1. *)
Theorem Next_advances_cursor s :
  servers (hp s) <> [] -> GoInt.is_slice (servers (hp s)) ->
  -1 <= curr (hp s) < GoInt.len (servers (hp s)) ->
  (exists server retryStart s',
     Next s = (Returns (server, retryStart), s') /\
     curr (hp s') = (curr (hp s) + 1) mod GoInt.len (servers (hp s)) /\
     retryStart = (curr (hp s') =? last (hp s)) /\
     last (hp s') = (if last (hp s) =? -1 then 0 else last (hp s)) /\
     servers (hp s') = servers (hp s))
  /\ (forall c t,
       curr (hp (step c t)) <> curr (hp t) ->
       c = COp OpNext \/
       exists srvs, c = CInit srvs /\ initialises c t = true /\
                    curr (hp (step c t)) = -1).
Proof.
  intros Hne Hfit Hc. split.
  - destruct (Next_returns s Hne Hfit Hc) as (server & s' & Hnext & Hhp).
    eexists _, _, _. split; [exact Hnext|]. by rewrite Hhp.
  - intros [srvs | o] t Hmoved.
    + right. exists srvs. simpl in *.
      destruct (Init_outcome srvs t) as [[e Heq] | (t' & Heq & Hcurr & _)];
        rewrite Heq in *; by simpl in *.
    + left. by destruct o.
Qed.

(** C4: [Init] is atomic on error.  For the empty input list, and for every
    input list with an entry that does not split as host:port, [Init]
    returns an error and the state is exactly what it was before the call. *)
Theorem Init_atomic_on_error srvs s :
  srvs = [] \/ Exists (fun server => ~ splits server) srvs ->
  exists e, Init srvs s = (Returns (Some e), s).
Proof. apply Init_fails. Qed.

(** C5: when the lookup made inside [Next] fails, or succeeds with no
    result, [Next] still returns: the address is that of the unresolved
    candidate, joined as host:port and not empty, the failure goes to the
    logger only, and the candidate in the sequence is not marked resolved. *)
Theorem Next_masks_lookup_failure s a ips err :
  servers (hp s) <> [] -> GoInt.is_slice (servers (hp s)) ->
  -1 <= curr (hp s) < GoInt.len (servers (hp s)) ->
  servers (hp s) !! Z.to_nat ((curr (hp s) + 1) mod GoInt.len (servers (hp s))) = Some a ->
  resolved a = false ->
  effective_lookup (hp s) (host a) = (ips, err) ->
  err <> None \/ ips = [] ->
  exists retryStart e s',
    Next s = (Returns (net.JoinHostPort (host a) (port a), retryStart), s') /\
    net.JoinHostPort (host a) (port a) <> "" /\
    (net.IndexByte (host a) ":" = None ->
     net.JoinHostPort (host a) (port a) = host a +:+ ":" +:+ port a) /\
    servers (hp s') = servers (hp s) /\
    servers (hp s') !! Z.to_nat (curr (hp s')) = Some a /\
    dns_queries (world s') = dns_queries (world s) ++ [host a] /\
    logged (world s') = logged (world s) ++ [ {| log_host := host a; log_err := e |} ].
Proof.
  intros Hne Hfit Hc Ha Hunres Hlookup Hfail.
  rewrite (Next_resolves s a Hne Hfit Hc Ha).
  destruct (resolve_falls_back a (advanced ((curr (hp s) + 1) mod GoInt.len (servers (hp s))) s)
              ips err Hunres Hlookup Hfail) as [e ->].
  eexists _, e, _. split; [reflexivity|]. simpl.
  pose proof (Next_cursor_index s Hne).
  repeat split; try done.
  - apply JoinHostPort_nonempty.
  - apply JoinHostPort_plain.
Qed.

(** C6: for every input list whose entries all split and which yields at
    least one candidate, [Init] succeeds; the provider's sequence is then a
    permutation of the parsed candidates, all unresolved, whatever it was
    before, [curr] and [last] are -1, and no resolver has been asked. *)
Theorem Init_installs_shuffled_candidates srvs s :
  Forall splits srvs -> srvs <> [] ->
  exists s1,
    Init srvs s = (Returns None, s1) /\
    servers (hp s1) ≡ₚ map candidate srvs /\
    Forall (fun a => resolved a = false) (servers (hp s1)) /\
    curr (hp s1) = -1 /\ last (hp s1) = -1 /\
    dns_queries (world s1) = dns_queries (world s).
Proof.
  intros Hall Hne.
  destruct (Init_succeeds srvs s Hall Hne) as (addrs & s' & -> & Hperm & Hdrew).
  eexists. split; [reflexivity|]. simpl. repeat split; try done.
  - rewrite Hperm. by apply Forall_map, Forall_true.
  - by apply drew_queries.
Qed.

(** C7: in every state reached from a successful [Init] by any sequence of
    [Next], [Connected] and [Len] calls, the sequence is non-empty and
    [curr] and [last] are each -1 or an index of the sequence. *)
Theorem provider_inv_reachable srvs s s1 os :
  Init srvs s = (Returns None, s1) -> GoInt.is_slice srvs ->
  provider_inv (hp (exec_all os s1)).
Proof.
  intros Hinit Hfit.
  by apply exec_all_well_formed, (Init_well_formed _ _ _ Hinit).
Qed.

(** C8, as amended: [Connected] sets [last] to [curr] and changes nothing
    else; and a call that moves [last] is [Connected], or it is [Next]
    promoting [last] from -1 to 0, or it is an [Init] that succeeds, which
    resets [last] to -1. *)
Theorem Connected_sets_anchor :
  (forall s, exists s',
     Connected s = (Returns (), s') /\
     last (hp s') = curr (hp s) /\
     servers (hp s') = servers (hp s) /\ curr (hp s') = curr (hp s) /\
     lookupHost (hp s') = lookupHost (hp s) /\ world s' = world s)
  /\ (forall c s,
       last (hp (step c s)) <> last (hp s) ->
       c = COp OpConnected \/
       (c = COp OpNext /\ last (hp s) = -1 /\ last (hp (step c s)) = 0) \/
       exists srvs, c = CInit srvs /\ initialises c s = true /\
                    last (hp (step c s)) = -1).
Proof.
  split.
  - intros s. eexists. by rewrite Connected_returns.
  - intros [srvs | o] s Hmoved.
    + right. right. exists srvs. simpl in *.
      destruct (Init_outcome srvs s) as [[e Heq] | (s' & Heq & _ & Hlast)];
        rewrite Heq in *; by simpl in *.
    + destruct o; [right; left | by left | done].
      simpl in *. by destruct (Next_last s) as [? | [? ?]].
Qed.

(** C9, as amended: for every non-empty input list whose entries all split
    as host:port, [Init] succeeds and [Len] then returns the length of the
    input; [Len] changes nothing, in any state. *)
Theorem Len_after_Init srvs s :
  Forall splits srvs -> srvs <> [] ->
  (exists s1, Init srvs s = (Returns None, s1) /\
              Len s1 = (Returns (GoInt.len srvs), s1))
  /\ (forall t, exists n, Len t = (Returns n, t)).
Proof.
  intros Hall Hne. split; [|by eauto using Len_returns].
  destruct (Init_succeeds srvs s Hall Hne) as (addrs & s' & -> & Hperm & _).
  eexists. split; [reflexivity|]. rewrite Len_returns. simpl.
  unfold GoInt.len. f_equal. f_equal. by rewrite Hperm, length_map.
Qed.

(** C10: on a provider without servers [Next] panics on the division by
    zero of its cursor update.  In a history of calls on a fresh provider
    that is the case exactly as long as no [Init] has succeeded: before
    that [Next] panics, from then on it returns. *)
Theorem Next_total_iff_initialised lh w cs :
  slice_args cs ->
  let s0 := {| hp := zero_provider lh; world := w |} in
  let s := run cs s0 in
  (forall t, servers (hp t) = [] -> Next t = (Panics "integer divide by zero", t))
  /\ if initialised cs s0
     then exists r s', Next s = (Returns r, s')
     else servers (hp s) = [] /\ Next s = (Panics "integer divide by zero", s).
Proof.
  intros Hargs s0 s. split; [apply Next_empty|].
  pose proof (run_from_empty cs s0 Hargs eq_refl) as Hrun. fold s in Hrun.
  destruct (initialised cs s0).
  - destruct (well_formed_bounds _ Hrun) as (Hne & Hfit & Hc & _).
    destruct (Next_returns s Hne Hfit Hc) as (server & s' & -> & _). by eauto.
  - split; [done | by apply Next_empty].
Qed.

(** ** Further properties of the methods *)

(** *** [resolve] *)

Lemma resolve_unresolved a s :
  resolved a = false ->
  exists a' err s',
    resolve a s = (Returns (a', err), s') /\
    hp s' = hp s /\
    dns_queries (world s') = dns_queries (world s) ++ [host a] /\
    logged (world s') = logged (world s) /\
    port a' = port a /\
    (err <> None -> a' = a) /\ (err = None -> resolved a' = true).
Proof.
  intros Ha.
  destruct (effective_lookup (hp s) (host a)) as [ips err] eqn:Hlookup.
  assert (err <> None \/ ips = [] \/ (err = None /\ ips <> [])) as [Hfail | [Hfail | [-> Hips]]].
  { destruct err; [by left|]. destruct ips; [right; by left | right; by right]. }
  - destruct (resolve_falls_back a s ips err Ha Hlookup) as [e ->]; [by left|].
    eexists _, _, _. split; [reflexivity|]. by repeat split.
  - destruct (resolve_falls_back a s ips err Ha Hlookup) as [e ->]; [by right|].
    eexists _, _, _. split; [reflexivity|]. by repeat split.
  - destruct (resolve_picks a s ips Ha Hlookup Hips) as (ip & s' & -> & _ & Hdrew).
    eexists _, _, _. split; [reflexivity|].
    rewrite (drew_hp _ _ Hdrew), (drew_queries _ _ Hdrew), (drew_logged _ _ Hdrew).
    by repeat split.
Qed.

(** X1: [resolve] always returns.  It leaves the provider and the logger
    alone, asks the resolver once for an unresolved address and not at all
    for a resolved one, and keeps the port; an error comes with the address
    as it was given, no error with a resolved address. *)
Theorem resolve_frame a s :
  exists a' err s',
    resolve a s = (Returns (a', err), s') /\
    hp s' = hp s /\
    logged (world s') = logged (world s) /\
    dns_queries (world s') =
      (if resolved a then dns_queries (world s) else dns_queries (world s) ++ [host a]) /\
    port a' = port a /\
    (err <> None -> a' = a) /\ (err = None -> resolved a' = true).
Proof.
  destruct (resolved a) eqn:Ha.
  - rewrite resolve_cached by done. eexists _, _, _. split; [reflexivity|].
    by repeat split.
  - destruct (resolve_unresolved a s Ha)
      as (a' & err & s' & -> & Hhp & Hq & Hlog & Hport & Herr & Hok).
    eexists _, _, _. split; [reflexivity|]. by repeat split.
Qed.

(** *** [Next] when the lookup succeeds *)

(** X2: when the resolver answers the candidate's host with at least one
    IP, [Next] returns one of these IPs joined with the candidate's port,
    asks the resolver exactly once, logs nothing and leaves the sequence as
    it was. *)
Theorem Next_returns_resolved_ip s a ips :
  servers (hp s) <> [] -> GoInt.is_slice (servers (hp s)) ->
  -1 <= curr (hp s) < GoInt.len (servers (hp s)) ->
  servers (hp s) !! Z.to_nat ((curr (hp s) + 1) mod GoInt.len (servers (hp s))) = Some a ->
  resolved a = false ->
  effective_lookup (hp s) (host a) = (ips, None) ->
  ips <> [] ->
  exists ip retryStart s',
    Next s = (Returns (net.JoinHostPort ip (port a), retryStart), s') /\
    ip ∈ ips /\
    dns_queries (world s') = dns_queries (world s) ++ [host a] /\
    logged (world s') = logged (world s) /\
    servers (hp s') = servers (hp s).
Proof.
  intros Hne Hfit Hc Ha Hunres Hlookup Hips.
  rewrite (Next_resolves s a Hne Hfit Hc Ha).
  destruct (resolve_picks a (advanced ((curr (hp s) + 1) mod GoInt.len (servers (hp s))) s)
              ips Hunres Hlookup Hips) as (ip & s' & -> & Hin & Hdrew).
  exists ip. eexists _, _. split; [reflexivity|].
  rewrite (drew_hp _ _ Hdrew), (drew_queries _ _ Hdrew), (drew_logged _ _ Hdrew).
  by repeat split.
Qed.

(** *** Between two initialisations *)

Lemma exec_servers o s :
  servers (hp (exec o s)) = servers (hp s) /\
  lookupHost (hp (exec o s)) = lookupHost (hp s).
Proof.
  destruct o; simpl; [|done..]. split; [apply Next_servers | apply Next_lookupHost].
Qed.

Lemma exec_all_servers os : forall s,
  servers (hp (exec_all os s)) = servers (hp s) /\
  lookupHost (hp (exec_all os s)) = lookupHost (hp s).
Proof.
  induction os as [|o os IH]; intros s; [done|].
  change (exec_all (o :: os) s) with (exec_all os (exec o s)).
  destruct (IH (exec o s)) as [-> ->]. apply exec_servers.
Qed.

(** X4: no sequence of [Next], [Connected] and [Len] calls changes the
    candidates, their order or the injected resolver, in whatever state it
    starts; so [Len] returns the same count all along. *)
Theorem servers_fixed_between_inits os s :
  servers (hp (exec_all os s)) = servers (hp s) /\
  lookupHost (hp (exec_all os s)) = lookupHost (hp s) /\
  (Len (exec_all os s)).1 = (Len s).1.
Proof.
  destruct (exec_all_servers os s) as [Hsrv Hlh].
  repeat split; try done. by rewrite !Len_returns, Hsrv.
Qed.

(** X3: after a successful [Init], whatever [Next], [Connected] and [Len]
    calls have been made since, a call of [Next] returns and asks the
    resolver exactly once, for the host of the candidate under the new
    cursor: that candidate is still unresolved. *)
Theorem Next_looks_up_every_time srvs s s1 os :
  Init srvs s = (Returns None, s1) -> GoInt.is_slice srvs ->
  let t := exec_all os s1 in
  exists a server retryStart t',
    Next t = (Returns (server, retryStart), t') /\
    servers (hp t') !! Z.to_nat (curr (hp t')) = Some a /\
    resolved a = false /\
    dns_queries (world t') = dns_queries (world t) ++ [host a].
Proof.
  intros Hinit Hfit t.
  pose proof (exec_all_well_formed os s1 (Init_well_formed _ _ _ Hinit Hfit)) as Hwf.
  fold t in Hwf. destruct (well_formed_bounds _ Hwf) as (Hne & Hslice & Hc & _).
  destruct (Next_candidate t Hne) as [a Ha].
  assert (resolved a = false) as Hunres.
  { destruct (Init_nil_inv _ _ _ Hinit) as [Hall Hsrvs].
    destruct (Init_succeeds srvs s Hall Hsrvs) as (addrs & s' & Heq & Hperm & _).
    rewrite Heq in Hinit. injection Hinit as <-.
    apply list_elem_of_lookup_2 in Ha. unfold t in Ha.
    rewrite (proj1 (exec_all_servers os _)) in Ha. simpl in Ha.
    rewrite Hperm in Ha. apply list_elem_of_In, in_map_iff in Ha as (srv & <- & _).
    done. }
  rewrite (Next_resolves t a Hne Hslice Hc Ha).
  pose proof (Next_cursor_index t Hne) as Hidx.
  destruct (resolve_unresolved a
              (advanced ((curr (hp t) + 1) mod GoInt.len (servers (hp t))) t) Hunres)
    as (a' & err & t' & -> & Hhp & Hq & _).
  exists a. destruct err as [e|]; eexists _, _, _; (split; [reflexivity|]);
    simpl; rewrite Hhp, Hq; by repeat split.
Qed.

(** *** Round robin *)

Lemma promoted_unset l : l <> -1 -> promoted l = l.
Proof. unfold promoted. by destruct (Z.eqb_spec l (-1)). Qed.

Lemma promoted_idem l : promoted (promoted l) = promoted l.
Proof. unfold promoted. destruct (Z.eqb_spec l (-1)); [done|]. by destruct (Z.eqb_spec l (-1)). Qed.

Lemma Next_times_cons n s r s1 :
  Next s = (Returns r, s1) ->
  Next_times (S n) s =
  match Next_times n s1 with
  | (Returns rs, s') => (Returns (r :: rs), s')
  | (Panics msg, s') => (Panics msg, s')
  end.
Proof.
  intros Hnext.
  change (Next_times (S n)) with
    (bind Next (fun r => bind (Next_times n) (fun rs => ret (r :: rs)))).
  unfold bind at 1. rewrite Hnext. unfold bind. by destruct (Next_times n s1) as [[?|?] ?].
Qed.

Lemma Next_times_state n : forall s,
  servers (hp s) <> [] -> GoInt.is_slice (servers (hp s)) ->
  -1 <= curr (hp s) < GoInt.len (servers (hp s)) ->
  exists rs s',
    Next_times (S n) s = (Returns rs, s') /\ length rs = S n /\
    hp s' = hp (advanced ((curr (hp s) + Z.of_nat (S n)) mod GoInt.len (servers (hp s))) s).
Proof.
  induction n as [|n IH]; intros s Hne Hfit Hc.
  - destruct (Next_returns s Hne Hfit Hc) as (server & s1 & Hnext & Hhp).
    rewrite (Next_times_cons 0 s _ s1 Hnext). simpl. by eauto.
  - destruct (Next_returns s Hne Hfit Hc) as (server & s1 & Hnext & Hhp).
    pose proof (Next_cursor_index s Hne) as Hidx.
    rewrite (Next_times_cons (S n) s _ s1 Hnext).
    destruct (IH s1) as (rs & s' & -> & Hlen & Hhp'); try (rewrite Hhp; simpl; done).
    { rewrite Hhp. simpl. lia. }
    eexists _, _. split; [reflexivity|]. split; [simpl; by rewrite Hlen|].
    rewrite Hhp'. unfold advanced. simpl. rewrite !Hhp. simpl. rewrite promoted_idem.
    rewrite Zplus_mod_idemp_l.
    by replace (curr (hp s) + 1 + Z.of_nat (S n)) with (curr (hp s) + Z.of_nat (S (S n))) by lia.
Qed.

(** X5: on a provider that satisfies its invariant, n >= 1 calls of [Next]
    in a row all return and leave the cursor at (old [curr] + n) mod N; the
    sequence is as it was, and the anchor is the old one, or 0 if there was
    none. *)
Theorem Next_times_cursor n s :
  servers (hp s) <> [] -> GoInt.is_slice (servers (hp s)) ->
  -1 <= curr (hp s) < GoInt.len (servers (hp s)) ->
  exists rs s',
    Next_times (S n) s = (Returns rs, s') /\ length rs = S n /\
    curr (hp s') = (curr (hp s) + Z.of_nat (S n)) mod GoInt.len (servers (hp s)) /\
    servers (hp s') = servers (hp s) /\
    last (hp s') = (if last (hp s) =? -1 then 0 else last (hp s)).
Proof.
  intros Hne Hfit Hc.
  destruct (Next_times_state n s Hne Hfit Hc) as (rs & s' & Htimes & Hlen & Hhp).
  exists rs, s'. by rewrite Hhp.
Qed.

Lemma Next_times_anchored n : forall s,
  servers (hp s) <> [] -> GoInt.is_slice (servers (hp s)) ->
  0 <= curr (hp s) < GoInt.len (servers (hp s)) -> last (hp s) <> -1 ->
  exists rs s',
    Next_times n s = (Returns rs, s') /\
    rs.*2 = (fun k => (curr (hp s) + Z.of_nat k) mod GoInt.len (servers (hp s))
                      =? last (hp s)) <$> seq 1 n /\
    curr (hp s') = (curr (hp s) + Z.of_nat n) mod GoInt.len (servers (hp s)).
Proof.
  induction n as [|n IH]; intros s Hne Hfit Hc Hlast.
  - eexists _, _. split; [reflexivity|]. split; [done|].
    rewrite Z.add_0_r, Z.mod_small; [done | lia].
  - destruct (Next_returns s Hne Hfit) as (server & s1 & Hnext & Hhp); [lia|].
    pose proof (Next_cursor_index s Hne) as Hidx.
    rewrite (Next_times_cons n s _ s1 Hnext).
    destruct (IH s1) as (rs & s' & -> & Hflags & Hcurr);
      try (rewrite Hhp; simpl; done).
    { rewrite Hhp. simpl. by rewrite promoted_unset. }
    eexists _, _. split; [reflexivity|].
    rewrite Hcurr, fmap_cons, Hflags, Hhp. simpl.
    rewrite promoted_unset by done. split.
    + f_equal. rewrite <- (fmap_S_seq 1 n), <- list_fmap_compose.
      apply list_fmap_ext. intros _ k _. simpl.
      rewrite Zplus_mod_idemp_l.
      by replace (curr (hp s) + 1 + Z.of_nat k) with (curr (hp s) + Z.pos (Pos.of_succ_nat k)) by lia.
    + rewrite Zplus_mod_idemp_l.
      by replace (curr (hp s) + 1 + Z.of_nat n) with (curr (hp s) + Z.of_nat (S n)) by lia.
Qed.

Lemma mod_once_round x k n :
  0 <= x < n -> n <= x + k < 2 * n -> (x + k) mod n = x + k - n.
Proof. intros Hx Hk. symmetry. apply (Z.mod_unique_pos _ _ 1); lia. Qed.

Lemma fmap_all_false {A} (f : A -> bool) (l : list A) :
  (forall i x, l !! i = Some x -> f x = false) ->
  f <$> l = replicate (length l) false.
Proof.
  induction l as [|x l IH]; intros Hall; [done|]. simpl.
  rewrite (Hall 0%nat x eq_refl). f_equal. apply IH.
  intros i y Hy. by apply (Hall (S i)).
Qed.

(** X6: once [Connected] has anchored the provider at index i, N calls of
    [Next] return [retryStart = false] N - 1 times and then
    [retryStart = true], on the call that brings the cursor back to i. *)
Theorem retryStart_back_at_anchor s :
  servers (hp s) <> [] -> GoInt.is_slice (servers (hp s)) ->
  0 <= curr (hp s) < GoInt.len (servers (hp s)) ->
  let N := length (servers (hp s)) in
  exists rs s',
    Next_times N (Connected s).2 = (Returns rs, s') /\
    rs.*2 = replicate (N - 1) false ++ [true] /\
    curr (hp s') = curr (hp s).
Proof.
  intros Hne Hfit Hc N.
  destruct (Next_times_anchored N (Connected s).2) as (rs & s' & Htimes & Hflags & Hcurr);
    try done.
  { simpl. lia. }
  simpl in Hflags, Hcurr. fold N in Hflags.
  exists rs, s'. split; [done|].
  assert (GoInt.len (servers (hp s)) = Z.of_nat N) as HN by done.
  rewrite HN in *. split.
  - rewrite Hflags. destruct N as [|m] eqn:Hm; [lia|].
    rewrite seq_S, fmap_app. simpl. rewrite Nat.sub_0_r. f_equal.
    + rewrite fmap_all_false, length_seq; [done|].
      intros i k [-> Hi]%lookup_seq.
      apply Z.eqb_neq.
      destruct (Z_lt_dec (curr (hp s) + Z.of_nat (1 + i)) (Z.of_nat (S m))).
      * rewrite Z.mod_small; lia.
      * rewrite mod_once_round; lia.
    + f_equal. apply Z.eqb_eq. rewrite mod_once_round; lia.
  - rewrite Hcurr, mod_once_round; lia.
Qed.

Lemma cursors_ring n : forall s,
  servers (hp s) <> [] -> GoInt.is_slice (servers (hp s)) ->
  -1 <= curr (hp s) < GoInt.len (servers (hp s)) ->
  cursors n s =
  (fun k => (curr (hp s) + Z.of_nat k) mod GoInt.len (servers (hp s))) <$> seq 1 n.
Proof.
  induction n as [|n IH]; intros s Hne Hfit Hc; [done|].
  destruct (Next_returns s Hne Hfit Hc) as (server & s1 & Hnext & Hhp).
  pose proof (Next_cursor_index s Hne) as Hidx.
  change (cursors (S n) s) with (curr (hp (Next s).2) :: cursors n (Next s).2).
  rewrite Hnext. simpl snd. rewrite IH; try (rewrite Hhp; simpl; done).
  - rewrite Hhp. simpl. f_equal.
    rewrite <- (fmap_S_seq 1 n), <- list_fmap_compose.
    apply list_fmap_ext. intros _ k _. simpl.
    rewrite Zplus_mod_idemp_l.
    by replace (curr (hp s) + 1 + Z.of_nat k) with (curr (hp s) + Z.pos (Pos.of_succ_nat k)) by lia.
  - rewrite Hhp. simpl. lia.
Qed.

Lemma ring_positions (n : nat) (c : Z) :
  -1 <= c < Z.of_nat n ->
  (fun k => (c + Z.of_nat k) mod Z.of_nat n) <$> seq 1 n ≡ₚ Z.of_nat <$> seq 0 n.
Proof.
  intros Hc. set (r := Z.to_nat (c + 1)).
  assert (seq 0 n = seq 0 (n - r) ++ (Nat.add (n - r) <$> seq 0 r)) as Hfront.
  { rewrite fmap_add_seq, Nat.add_0_r.
    replace (seq (n - r) r) with (seq (0 + (n - r)) r) by done.
    rewrite <- seq_app. f_equal. lia. }
  assert (seq 0 n = seq 0 r ++ (Nat.add r <$> seq 0 (n - r))) as Hback.
  { rewrite fmap_add_seq, Nat.add_0_r.
    replace (seq r (n - r)) with (seq (0 + r) (n - r)) by done.
    rewrite <- seq_app. f_equal. lia. }
  trans (Z.of_nat <$> ((Nat.add r <$> seq 0 (n - r)) ++ seq 0 r)).
  - rewrite <- (fmap_S_seq 0 n), <- list_fmap_compose, Hfront.
    rewrite !fmap_app, <- !list_fmap_compose.
    apply Permutation_refl'. f_equal.
    + apply list_fmap_ext. intros i k [-> Hi]%lookup_seq. simpl.
      rewrite Z.mod_small; lia.
    + apply list_fmap_ext. intros i k [-> Hi]%lookup_seq. simpl.
      replace (c + Z.pos (Pos.of_succ_nat (n - r + i))) with (Z.of_nat i + Z.of_nat n) by lia.
      rewrite mod_once_round; lia.
  - by rewrite Permutation_app_comm, <- Hback.
Qed.

(** X7: on a provider that satisfies its invariant, N calls of [Next] in a
    row put the cursor on every index of the sequence exactly once. *)
Theorem Next_visits_every_index s :
  servers (hp s) <> [] -> GoInt.is_slice (servers (hp s)) ->
  -1 <= curr (hp s) < GoInt.len (servers (hp s)) ->
  cursors (length (servers (hp s))) s ≡ₚ Z.of_nat <$> seq 0 (length (servers (hp s))).
Proof.
  intros Hne Hfit Hc. rewrite cursors_ring by done.
  by apply ring_positions.
Qed.

(** *** More on [Init] *)

Lemma parse_stops good : forall acc bad rest h p e,
  Forall splits good -> SplitHostPort bad = (h, p, Some e) ->
  parse (good ++ bad :: rest) acc = (acc ++ map candidate good, Some e).
Proof.
  induction good as [|server good IH]; intros acc bad rest h p e Hall Hbad; simpl.
  - by rewrite Hbad, app_nil_r.
  - apply Forall_cons in Hall as [Hs Hgood].
    unfold splits in Hs. unfold candidate at 1.
    destruct (SplitHostPort server) as [[h' p'] e']; simpl in *; subst e'.
    by rewrite (IH _ bad rest h p e), <- app_assoc.
Qed.

(** X8: [Init] returns the error of the first entry that does not split,
    whatever follows it, and the "no hosts" error for the empty list; in
    both cases nothing has changed. *)
Theorem Init_reports_first_malformed good bad rest h p e s :
  Forall splits good -> SplitHostPort bad = (h, p, Some e) ->
  Init (good ++ bad :: rest) s = (Returns (Some e), s) /\
  Init [] s = (Returns (Some (NoHostsForAddresses [])), s).
Proof.
  intros Hall Hbad. split; [|done].
  unfold Init. by rewrite (parse_stops good [] bad rest h p e).
Qed.





(** X11: [Connected] right after a successful [Init], before any [Next],
    changes nothing: there is no candidate to anchor yet, and [last] stays
    -1. *)
Theorem Connected_before_Next_changes_nothing srvs s s1 :
  Init srvs s = (Returns None, s1) -> Connected s1 = (Returns (), s1).
Proof.
  intros Hinit. destruct (Init_nil_inv _ _ _ Hinit) as [Hall Hne].
  destruct (Init_succeeds srvs s Hall Hne) as (addrs & s' & Heq & _).
  rewrite Heq in Hinit. by injection Hinit as <-.
Qed.

(** *** The address [Next] returns *)

Lemma resolve_keeps_port a s :
  exists a' err s',
    resolve a s = (Returns (a', err), s') /\ hp s' = hp s /\ port a' = port a.
Proof.
  destruct (resolved a) eqn:Ha.
  - rewrite resolve_cached by done. by eauto 10.
  - destruct (resolve_unresolved a s Ha) as (a' & err & s' & -> & Hhp & _ & _ & Hport & _).
    by eauto 10.
Qed.

(** X12: whenever [Next] returns, in whatever state it was called, the
    cursor is on a candidate of the sequence, the address returned is some
    host joined with the port of that candidate and is not empty, and the
    flag tells whether the cursor is where the anchor was. *)
Theorem Next_address_has_candidate_port s server retryStart s' :
  Next s = (Returns (server, retryStart), s') ->
  exists a h,
    0 <= curr (hp s') /\
    servers (hp s') !! Z.to_nat (curr (hp s')) = Some a /\
    server = net.JoinHostPort h (port a) /\
    server <> "" /\
    retryStart = (curr (hp s') =? last (hp s)).
Proof.
  rewrite Next_unfold.
  destruct (GoInt.rem _ _) as [c|]; [|done]. cbv zeta.
  destruct (index_outcome (servers (hp s)) c (advanced c s))
    as [(a & Hc & Ha & ->) | ->]; [|done].
  destruct (resolve_keeps_port a (advanced c s)) as (a' & err & s2 & -> & Hhp & Hport).
  intros Hret. exists a, (host a').
  assert (server = addr a' /\ retryStart = (c =? last (hp s)) /\ hp s' = hp s2)
    as (-> & -> & ->).
  { destruct err; injection Hret as <- <- <-; done. }
  rewrite Hhp. simpl. unfold addr. rewrite Hport.
  repeat split; try done. apply JoinHostPort_nonempty.
Qed.

End ProviderFacts.

(** *** The injected resolver *)

Lemma resolve_override LH1 LH2 f a s :
  lookupHost (hp s) = Some f -> resolve LH1 a s = resolve LH2 a s.
Proof.
  intros Hf. unfold resolve. destruct (resolved a); [done|].
  unfold bind, get. by rewrite Hf.
Qed.

Lemma Next_override LH1 LH2 f s :
  lookupHost (hp s) = Some f -> Next LH1 s = Next LH2 s.
Proof.
  intros Hf. rewrite !Next_unfold.
  destruct (GoInt.rem _ _) as [c|]; [|done]. cbv zeta.
  destruct (index (servers (hp s)) c (advanced c s)) as [[a|msg] ?]; [|done].
  by rewrite (resolve_override LH1 LH2 f).
Qed.

Lemma exec_all_override LH1 LH2 f os : forall s,
  lookupHost (hp s) = Some f -> exec_all LH1 os s = exec_all LH2 os s.
Proof.
  induction os as [|o os IH]; intros s Hf; [done|].
  change (exec_all LH1 (o :: os) s) with (exec_all LH1 os (exec LH1 o s)).
  change (exec_all LH2 (o :: os) s) with (exec_all LH2 os (exec LH2 o s)).
  assert (exec LH1 o s = exec LH2 o s) as <-.
  { destruct o; simpl; [|done..]. by rewrite (Next_override LH1 LH2 f). }
  apply IH. by rewrite (proj2 (exec_servers LH1 o s)).
Qed.

(** X10: on a provider with an injected resolver, [net.LookupHost] plays no
    part: whatever it is, every sequence of [Next], [Connected] and [Len]
    calls leaves the same state, and [Next] returns the same. *)
Theorem injected_resolver_replaces_LookupHost LH1 LH2 f os s :
  lookupHost (hp s) = Some f ->
  exec_all LH1 os s = exec_all LH2 os s /\
  Next LH1 (exec_all LH1 os s) = Next LH2 (exec_all LH2 os s).
Proof.
  intros Hf. rewrite <- (exec_all_override LH1 LH2 f os s Hf). split; [done|].
  apply (Next_override LH1 LH2 f).
  by rewrite (proj2 (exec_all_servers LH1 os s)).
Qed.

(** ** The claims on the test bench *)

Ltac by_evaluation := vm_compute; repeat split; congruence.

(** C1 fails on the code.  [Next] hands the result of [resolve] to the caller
    and stores nothing: on a provider for host "a" alone, whose resolver
    answers 10.0.0.1, the second call lands on index 0 again, asks the
    resolver again, and the candidate in the sequence is still unresolved. *)
Theorem Next_asks_resolver_again :
  Init net.SplitHostPort ["a:2181"] (fresh a_resolver (fun _ => 0%nat))
    = (Returns None, a_ready) /\
  exists s1 s2,
    Next failing_resolver a_ready = (Returns ("10.0.0.1:2181", false), s1) /\
    Next failing_resolver s1 = (Returns ("10.0.0.1:2181", true), s2) /\
    curr (hp s1) = 0 /\ curr (hp s2) = 0 /\
    dns_queries (world s1) = ["a"] /\
    dns_queries (world s2) = ["a"; "a"] /\
    servers (hp s2) = [ {| host := "a"; port := "2181"; resolved := false |} ].
Proof.
  split; [reflexivity|].
  exists (Next failing_resolver a_ready).2,
         (Next failing_resolver (Next failing_resolver a_ready).2).2.
  repeat split; vm_compute; reflexivity.
Qed.

(** C2 fails as stated: with the three candidates of the spec's scenario the
    third call of [Next] returns [retryStart = false]. *)
Lemma third_Next_of_three_is_no_retryStart :
  Init net.SplitHostPort zk3 (fresh self_resolver (fun k => k))
    = (Returns None, zk3_ready) /\
  length (servers (hp zk3_ready)) = 3%nat /\
  exists rs s',
    Next_times self_resolver 3 zk3_ready = (Returns rs, s') /\
    rs.*2 = [false; false; false] /\
    rs.*2 <> [false; false; true].
Proof.
  split; [reflexivity|]. split; [reflexivity|].
  destruct (Next_times self_resolver 3 zk3_ready) as [r s'] eqn:Hrun.
  vm_compute in Hrun. injection Hrun as <- <-.
  eexists _, _. split; [reflexivity|]. split; [reflexivity | discriminate].
Qed.

Lemma retryStart_after_full_cycle_zk3 :
  length (servers (hp zk3_ready)) = length zk3 /\
  exists rs s2,
    Next_times self_resolver (length zk3 + 1) zk3_ready = (Returns rs, s2) /\
    rs.*2 = replicate (length zk3) false ++ [true] /\
    curr (hp s2) = 0.
Proof.
  apply (retryStart_after_full_cycle net.SplitHostPort self_resolver zk3
           (fresh self_resolver (fun k => k)) zk3_ready).
  - reflexivity.
  - by_evaluation.
Defined.

(** C3 fails as stated: [Init] is a call that changes [curr].  After one
    [Next] the cursor of the scenario's provider is 0; [Init] puts it back
    to -1. *)
Lemma Init_moves_cursor :
  curr (hp zk3_started) = 0 /\
  exists s',
    Init net.SplitHostPort zk3 zk3_started = (Returns None, s') /\
    curr (hp s') = -1 /\
    curr (hp s') <> curr (hp zk3_started).
Proof.
  split; [reflexivity|].
  exists (Init net.SplitHostPort zk3 zk3_started).2.
  split; [reflexivity|]. split; [reflexivity | by_evaluation].
Qed.

Lemma Next_advances_cursor_zk3 :
  (exists server retryStart s',
     Next self_resolver zk3_ready = (Returns (server, retryStart), s') /\
     curr (hp s') = (curr (hp zk3_ready) + 1) mod GoInt.len (servers (hp zk3_ready)) /\
     retryStart = (curr (hp s') =? last (hp zk3_ready)) /\
     last (hp s') = (if last (hp zk3_ready) =? -1 then 0 else last (hp zk3_ready)) /\
     servers (hp s') = servers (hp zk3_ready))
  /\ (forall c t,
       curr (hp (step net.SplitHostPort self_resolver c t)) <> curr (hp t) ->
       c = COp OpNext \/
       exists srvs, c = CInit srvs /\ initialises net.SplitHostPort c t = true /\
                    curr (hp (step net.SplitHostPort self_resolver c t)) = -1).
Proof.
  apply (Next_advances_cursor net.SplitHostPort self_resolver zk3_ready); by_evaluation.
Defined.

Lemma Init_atomic_on_error_badhost :
  exists e,
    Init net.SplitHostPort ["zk1:2181"; "badhost"] zk3_ready = (Returns (Some e), zk3_ready).
Proof.
  apply (Init_atomic_on_error net.SplitHostPort ["zk1:2181"; "badhost"] zk3_ready).
  right. apply Exists_cons_tl, Exists_cons_hd. by_evaluation.
Defined.

Lemma Next_masks_lookup_failure_down :
  exists retryStart e s',
    Next self_resolver down_ready = (Returns (net.JoinHostPort "zk1" "2181", retryStart), s') /\
    net.JoinHostPort "zk1" "2181" <> "" /\
    (net.IndexByte "zk1" ":" = None ->
     net.JoinHostPort "zk1" "2181" = "zk1" +:+ ":" +:+ "2181") /\
    servers (hp s') = servers (hp down_ready) /\
    servers (hp s') !! Z.to_nat (curr (hp s')) =
      Some {| host := "zk1"; port := "2181"; resolved := false |} /\
    dns_queries (world s') = dns_queries (world down_ready) ++ ["zk1"] /\
    logged (world s') = logged (world down_ready) ++ [ {| log_host := "zk1"; log_err := e |} ].
Proof.
  apply (Next_masks_lookup_failure self_resolver down_ready
           {| host := "zk1"; port := "2181"; resolved := false |}
           [] (Some (LookupError "no such host"))).
  - by_evaluation.
  - by_evaluation.
  - by_evaluation.
  - reflexivity.
  - reflexivity.
  - reflexivity.
  - left. discriminate.
Defined.

Lemma Init_installs_shuffled_candidates_zk3 :
  exists s1,
    Init net.SplitHostPort zk3 zk3_ready = (Returns None, s1) /\
    servers (hp s1) ≡ₚ map (candidate net.SplitHostPort) zk3 /\
    Forall (fun a => resolved a = false) (servers (hp s1)) /\
    curr (hp s1) = -1 /\ last (hp s1) = -1 /\
    dns_queries (world s1) = dns_queries (world zk3_ready).
Proof.
  apply (Init_installs_shuffled_candidates net.SplitHostPort zk3 zk3_ready).
  - repeat constructor.
  - discriminate.
Defined.

Lemma provider_inv_reachable_zk3 :
  provider_inv
    (hp (exec_all self_resolver
           [OpNext; OpConnected; OpLen; OpNext; OpNext; OpNext; OpConnected] zk3_ready)).
Proof.
  apply (provider_inv_reachable net.SplitHostPort self_resolver zk3
           (fresh self_resolver (fun k => k))).
  - reflexivity.
  - by_evaluation.
Defined.

(** C9 fails as stated: the input ["badhost"] is not empty, and [Init]
    returns an error on it; [Len] is then still 0. *)
Lemma Init_rejects_nonempty_badhost :
  ["badhost"] <> [] /\
  Init net.SplitHostPort ["badhost"] (fresh self_resolver (fun k => k))
    = (Returns (Some (AddrError net.missingPort "badhost")),
       fresh self_resolver (fun k => k)) /\
  Len (fresh self_resolver (fun k => k)) = (Returns 0, fresh self_resolver (fun k => k)).
Proof. split; [discriminate|]. split; reflexivity. Qed.

Lemma Len_after_Init_zk3 :
  (exists s1, Init net.SplitHostPort zk3 (fresh self_resolver (fun k => k)) = (Returns None, s1) /\
              Len s1 = (Returns (GoInt.len zk3), s1))
  /\ (forall t, exists n, Len t = (Returns n, t)).
Proof.
  apply (Len_after_Init net.SplitHostPort zk3 (fresh self_resolver (fun k => k))).
  - repeat constructor.
  - discriminate.
Defined.

Lemma Next_total_iff_initialised_history :
  let cs := [COp OpNext; CInit ["badhost"]; COp OpConnected; CInit zk3; COp OpNext] in
  let s0 := {| hp := zero_provider (Some self_resolver); world := quiet_world (fun k => k) |} in
  let s := run net.SplitHostPort self_resolver cs s0 in
  (forall t, servers (hp t) = [] ->
             Next self_resolver t = (Panics "integer divide by zero", t))
  /\ if initialised net.SplitHostPort self_resolver cs s0
     then exists r s', Next self_resolver s = (Returns r, s')
     else servers (hp s) = [] /\ Next self_resolver s = (Panics "integer divide by zero", s).
Proof.
  intros cs.
  apply (Next_total_iff_initialised net.SplitHostPort self_resolver
           (Some self_resolver) (quiet_world (fun k => k)) cs).
  repeat constructor; by_evaluation.
Defined.


(** C8 fails as stated: [Init] is an operation that moves [last].  With the
    anchor of the scenario's provider at index 1, [Init] puts it back to -1. *)
Lemma Init_moves_anchor :
  last (hp zk3_connected) = 1 /\
  exists s',
    Init net.SplitHostPort zk3 zk3_connected = (Returns None, s') /\
    last (hp s') = -1 /\
    last (hp s') <> last (hp zk3_connected).
Proof.
  split; [reflexivity|].
  exists (Init net.SplitHostPort zk3 zk3_connected).2.
  split; [reflexivity|]. split; [reflexivity | by_evaluation].
Qed.

Lemma Connected_sets_anchor_zk3 :
  COp OpNext = COp OpConnected \/
  (COp OpNext = COp OpNext /\ last (hp zk3_ready) = -1 /\
   last (hp (step net.SplitHostPort self_resolver (COp OpNext) zk3_ready)) = 0) \/
  exists srvs, COp OpNext = CInit srvs /\
               initialises net.SplitHostPort (COp OpNext) zk3_ready = true /\
               last (hp (step net.SplitHostPort self_resolver (COp OpNext) zk3_ready)) = -1.
Proof.
  apply (proj2 (Connected_sets_anchor net.SplitHostPort self_resolver)
           (COp OpNext) zk3_ready).
  by_evaluation.
Defined.

(** ** The further properties on the test bench *)

Lemma Next_returns_resolved_ip_a :
  exists ip retryStart s',
    Next failing_resolver a_ready
      = (Returns (net.JoinHostPort ip "2181", retryStart), s') /\
    ip ∈ ["10.0.0.1"] /\
    dns_queries (world s') = dns_queries (world a_ready) ++ ["a"] /\
    logged (world s') = logged (world a_ready) /\
    servers (hp s') = servers (hp a_ready).
Proof.
  apply (Next_returns_resolved_ip failing_resolver a_ready
           {| host := "a"; port := "2181"; resolved := false |} ["10.0.0.1"]).
  - by_evaluation.
  - by_evaluation.
  - by_evaluation.
  - reflexivity.
  - reflexivity.
  - reflexivity.
  - discriminate.
Defined.

Lemma Next_looks_up_every_time_zk3 :
  let t := exec_all self_resolver [OpNext; OpConnected; OpNext] zk3_ready in
  exists a server retryStart t',
    Next self_resolver t = (Returns (server, retryStart), t') /\
    servers (hp t') !! Z.to_nat (curr (hp t')) = Some a /\
    resolved a = false /\
    dns_queries (world t') = dns_queries (world t) ++ [host a].
Proof.
  apply (Next_looks_up_every_time net.SplitHostPort self_resolver zk3
           (fresh self_resolver (fun k => k)) zk3_ready
           [OpNext; OpConnected; OpNext]).
  - reflexivity.
  - by_evaluation.
Defined.

Lemma Next_times_cursor_zk3 :
  exists rs s',
    Next_times self_resolver 5 zk3_ready = (Returns rs, s') /\ length rs = 5%nat /\
    curr (hp s') = (curr (hp zk3_ready) + Z.of_nat 5) mod GoInt.len (servers (hp zk3_ready)) /\
    servers (hp s') = servers (hp zk3_ready) /\
    last (hp s') = (if last (hp zk3_ready) =? -1 then 0 else last (hp zk3_ready)).
Proof.
  apply (Next_times_cursor self_resolver 4 zk3_ready); by_evaluation.
Defined.

Lemma retryStart_back_at_anchor_zk3 :
  let N := length (servers (hp zk3_connected)) in
  exists rs s',
    Next_times self_resolver N (Connected zk3_connected).2 = (Returns rs, s') /\
    rs.*2 = replicate (N - 1) false ++ [true] /\
    curr (hp s') = curr (hp zk3_connected).
Proof.
  apply (retryStart_back_at_anchor self_resolver zk3_connected); by_evaluation.
Defined.

Lemma Next_visits_every_index_zk3 :
  cursors self_resolver (length (servers (hp zk3_started))) zk3_started
    ≡ₚ Z.of_nat <$> seq 0 (length (servers (hp zk3_started))).
Proof.
  apply (Next_visits_every_index self_resolver zk3_started); by_evaluation.
Defined.

Lemma Init_reports_first_malformed_badhost :
  Init net.SplitHostPort (["zk1:2181"] ++ "badhost" :: ["zk3:2181"; "worse"]) zk3_ready
    = (Returns (Some (AddrError net.missingPort "badhost")), zk3_ready) /\
  Init net.SplitHostPort [] zk3_ready
    = (Returns (Some (NoHostsForAddresses [])), zk3_ready).
Proof.
  apply (Init_reports_first_malformed net.SplitHostPort ["zk1:2181"] "badhost"
           ["zk3:2181"; "worse"] "" "").
  - repeat constructor.
  - reflexivity.
Defined.


Lemma injected_resolver_replaces_LookupHost_zk3 :
  exec_all failing_resolver [OpNext; OpNext] zk3_ready
    = exec_all a_resolver [OpNext; OpNext] zk3_ready /\
  Next failing_resolver (exec_all failing_resolver [OpNext; OpNext] zk3_ready)
    = Next a_resolver (exec_all a_resolver [OpNext; OpNext] zk3_ready).
Proof.
  apply (injected_resolver_replaces_LookupHost failing_resolver a_resolver
           self_resolver [OpNext; OpNext] zk3_ready).
  reflexivity.
Defined.

Lemma Connected_before_Next_changes_nothing_zk3 :
  Connected zk3_ready = (Returns (), zk3_ready).
Proof.
  apply (Connected_before_Next_changes_nothing net.SplitHostPort zk3
           (fresh self_resolver (fun k => k)) zk3_ready).
  reflexivity.
Defined.

Lemma Next_address_has_candidate_port_zk3 :
  exists a h,
    0 <= curr (hp zk3_started) /\
    servers (hp zk3_started) !! Z.to_nat (curr (hp zk3_started)) = Some a /\
    "zk3:2181" = net.JoinHostPort h (port a) /\
    "zk3:2181" <> "" /\
    false = (curr (hp zk3_started) =? last (hp zk3_ready)).
Proof.
  apply (Next_address_has_candidate_port self_resolver zk3_ready "zk3:2181" false
           zk3_started).
  reflexivity.
Defined.
